(** * ng2-idle: the [Idle] service of [src/idle.ts]

    A shallow embedding of the idle-detection controller.  The controller
    object, the host's interval timers, the [Interrupt] objects it owns and
    the calls it makes to its collaborators (event emitters, [setInterval],
    [clearInterval], the attach and detach hooks of interrupt sources) are
    threaded explicitly through a [World]. *)

From stdpp Require Import base numbers list strings.

Local Open Scope Z_scope.

(** ** Values *)

(** The JavaScript values that reach the controller from its callers. *)
Inductive JsVal :=
| JUndefined
| JNull
| JBool (b : bool)
| JNum (n : Z)
| JNaN
| JStr (s : string).

(** A field declared [number] and never initialised by the constructor reads
    [undefined]; arithmetic on it gives [NaN]. *)
Inductive JsNumber :=
| NUndefined
| NNaN
| NInt (n : Z).

Definition toJsVal (n : JsNumber) : JsVal :=
  match n with
  | NUndefined => JUndefined
  | NNaN => JNaN
  | NInt z => JNum z
  end.

(** [n <= 0] on a [number] field: false on [undefined] and on [NaN]. *)
Definition leZero (n : JsNumber) : bool :=
  match n with
  | NInt z => bool_decide (z <= 0)
  | _ => false
  end.

(** [n--] *)
Definition decr (n : JsNumber) : JsNumber :=
  match n with
  | NInt z => NInt (z - 1)
  | _ => NNaN
  end.

(** [v === true] *)
Definition isTrue (v : JsVal) : bool :=
  match v with
  | JBool true => true
  | _ => false
  end.

(** Outcome of a method that may [throw new Error(msg)]. *)
Inductive Result (A : Type) :=
| Return (a : A)
| Throw (msg : string).
Arguments Return {A} a.
Arguments Throw {A} msg.

(** ** The [AutoResume] enum *)

Module AutoResume.

Inductive t := disabled | idle | notIdle.

Definition eqb (a b : t) : bool :=
  match a, b with
  | disabled, disabled | idle, idle | notIdle, notIdle => true
  | _, _ => false
  end.

End AutoResume.

(** ** Collaborators *)

(** Interval handles: the host hands out integers greater than zero, so a
    stored handle is always truthy. *)
Definition Handle := positive.

(** The two closures the controller passes to [setInterval]. *)
Inductive Callback := CbToggleState | CbDoCountdown.

Record Timer := mkTimer {
  t_handle : Handle;
  t_callback : Callback;
  t_period : Z;     (* milliseconds *)
  t_due : Z         (* virtual time of the next firing, milliseconds *)
}.

(** The five [EventEmitter] members. *)
Inductive Emitter := onIdleStart | onIdleEnd | onTimeoutWarning | onTimeout | onInterrupt.

(** Modelled from the spec: [interruptsource.ts] is not part of the sources at
    hand.  An interrupt source has an optional attach hook and an optional
    detach hook (section 6, and the constructor of [MockInterruptSource]). *)
Record InterruptSource := mkSource {
  src_id : nat;
  attachFn : bool;   (* is an attach hook provided? *)
  detachFn : bool    (* is a detach hook provided? *)
}.

(** The listener [setInterrupts] registers:
    [(args) => self.interrupt(args.force, args.innerArgs)]. *)
Inductive Listener := ForwardToInterrupt.

(** Modelled from the spec: [interrupt.ts] is not part of the sources at hand.
    An Interrupt Subscription wraps one source, has a paused/active flag and a
    listener registration (section 4.2). *)
Record Interrupt := mkInterrupt {
  source : InterruptSource;
  active : bool;
  listener : option Listener
}.

(** References to [Interrupt] objects: positions in the world's heap. *)
Abbreviation Ref := nat (only parsing).

(** Calls the controller makes to its collaborators, in program order. *)
Inductive Event :=
| Emit (e : Emitter) (v : JsVal)
| SetInterval (h : Handle) (cb : Callback) (ms : Z)
| ClearInterval (h : Handle)
| Attach (src : nat)
| Detach (src : nat).

(** ** The controller object *)

Record Idle := mkIdle {
  idle : Z;                       (* in seconds *)
  timeoutVal : Z;                 (* in seconds *)
  autoResume : AutoResume.t;
  interrupts : list Ref;
  running : bool;
  idling : bool;
  idleHandle : option Handle;
  timeoutHandle : option Handle;
  countdown : JsNumber
}.

Record World := mkWorld {
  self : Idle;
  heap : list Interrupt;          (* every Interrupt object ever created *)
  timers : list Timer;            (* the host's live intervals, oldest first *)
  next_handle : Handle;
  now : Z;                        (* virtual clock, milliseconds *)
  trace : list Event
}.

(** Field updates. *)
Definition set_idle v (o : Idle) : Idle :=
  mkIdle v (timeoutVal o) (autoResume o) (interrupts o) (running o) (idling o)
         (idleHandle o) (timeoutHandle o) (countdown o).
Definition set_timeoutVal v (o : Idle) : Idle :=
  mkIdle (idle o) v (autoResume o) (interrupts o) (running o) (idling o)
         (idleHandle o) (timeoutHandle o) (countdown o).
Definition set_autoResume v (o : Idle) : Idle :=
  mkIdle (idle o) (timeoutVal o) v (interrupts o) (running o) (idling o)
         (idleHandle o) (timeoutHandle o) (countdown o).
Definition set_interrupts v (o : Idle) : Idle :=
  mkIdle (idle o) (timeoutVal o) (autoResume o) v (running o) (idling o)
         (idleHandle o) (timeoutHandle o) (countdown o).
Definition set_running v (o : Idle) : Idle :=
  mkIdle (idle o) (timeoutVal o) (autoResume o) (interrupts o) v (idling o)
         (idleHandle o) (timeoutHandle o) (countdown o).
Definition set_idling v (o : Idle) : Idle :=
  mkIdle (idle o) (timeoutVal o) (autoResume o) (interrupts o) (running o) v
         (idleHandle o) (timeoutHandle o) (countdown o).
Definition set_idleHandle v (o : Idle) : Idle :=
  mkIdle (idle o) (timeoutVal o) (autoResume o) (interrupts o) (running o) (idling o)
         v (timeoutHandle o) (countdown o).
Definition set_timeoutHandle v (o : Idle) : Idle :=
  mkIdle (idle o) (timeoutVal o) (autoResume o) (interrupts o) (running o) (idling o)
         (idleHandle o) v (countdown o).
Definition set_countdown v (o : Idle) : Idle :=
  mkIdle (idle o) (timeoutVal o) (autoResume o) (interrupts o) (running o) (idling o)
         (idleHandle o) (timeoutHandle o) v.

(** [this.f = ...]: update the controller inside the world. *)
Definition this (f : Idle -> Idle) (w : World) : World :=
  mkWorld (f (self w)) (heap w) (timers w) (next_handle w) (now w) (trace w).

Definition set_heap v (w : World) : World :=
  mkWorld (self w) v (timers w) (next_handle w) (now w) (trace w).
Definition set_timers v (w : World) : World :=
  mkWorld (self w) (heap w) v (next_handle w) (now w) (trace w).
Definition set_next_handle v (w : World) : World :=
  mkWorld (self w) (heap w) (timers w) v (now w) (trace w).
Definition set_now v (w : World) : World :=
  mkWorld (self w) (heap w) (timers w) (next_handle w) v (trace w).
Definition record (e : Event) (w : World) : World :=
  mkWorld (self w) (heap w) (timers w) (next_handle w) (now w) (trace w ++ [e]).

(** ** Construction *)

(** The field initialisers of the class. *)
Definition newIdle : Idle :=
  {| idle := 20 * 60;
     timeoutVal := 30;
     autoResume := AutoResume.idle;
     interrupts := [];
     running := false;
     idling := false;
     idleHandle := None;
     timeoutHandle := None;
     countdown := NUndefined |}.

(** A page that has just constructed the service. *)
Definition newWorld : World :=
  {| self := newIdle; heap := []; timers := []; next_handle := 1%positive;
     now := 0; trace := [] |}.

(** ** Configuration *)

Definition getTimeout (w : World) : Z := timeoutVal (self w).

Definition setTimeout (seconds : JsVal) (w : World) : Result Z * World :=
  match seconds with
  | JBool false =>
      let w := this (set_timeoutVal 0) w in
      (Return (timeoutVal (self w)), w)
  | JNum n =>
      if bool_decide (n >= 0) then
        let w := this (set_timeoutVal n) w in
        (Return (timeoutVal (self w)), w)
      else (Throw "'seconds' can only be 'false' or a positive number.", w)
  | _ => (Throw "'seconds' can only be 'false' or a positive number.", w)
  end.

Definition getIdle (w : World) : Z := idle (self w).

Definition setIdle (seconds : Z) (w : World) : Result Z * World :=
  if bool_decide (seconds <= 0) then (Throw "'seconds' must be greater zero", w)
  else (Return seconds, this (set_idle seconds) w).

Definition getAutoResume (w : World) : AutoResume.t := autoResume (self w).

Definition setAutoResume (value : AutoResume.t) (w : World) : AutoResume.t * World :=
  (value, this (set_autoResume value) w).

Definition isRunning (w : World) : bool := running (self w).
Definition isIdling (w : World) : bool := idling (self w).
Definition getInterrupts (w : World) : list Ref := interrupts (self w).

(** ** The host: event emitters and interval timers *)

(** [emitter.emit(v)] *)
Definition emit (e : Emitter) (v : JsVal) (w : World) : World := record (Emit e v) w.

(** [setInterval(cb, ms)]: a fresh handle, first firing [ms] from now. *)
Definition setInterval (cb : Callback) (ms : Z) (w : World) : Handle * World :=
  let h := next_handle w in
  let w := record (SetInterval h cb ms) w in
  let w := set_timers (timers w ++ [mkTimer h cb ms (now w + ms)]) w in
  (h, set_next_handle (Pos.succ h) w).

(** [clearInterval(h)]: the interval stops firing; unknown handles are ignored. *)
Definition clearInterval (h : Handle) (w : World) : World :=
  let w := record (ClearInterval h) w in
  set_timers (filter (fun t => t_handle t <> h) (timers w)) w.

(** ** Lifecycle *)

(** The two handle fields [safeClearInterval] is called with. *)
Inductive HandleName := idleHandleName | timeoutHandleName.

Definition getHandle (name : HandleName) (o : Idle) : option Handle :=
  match name with
  | idleHandleName => idleHandle o
  | timeoutHandleName => timeoutHandle o
  end.

Definition setHandle (name : HandleName) (v : option Handle) : Idle -> Idle :=
  match name with
  | idleHandleName => set_idleHandle v
  | timeoutHandleName => set_timeoutHandle v
  end.

Definition safeClearInterval (name : HandleName) (w : World) : World :=
  match getHandle name (self w) with
  | Some h =>
      let w := clearInterval h w in
      this (setHandle name None) w
  | None => w
  end.

(** Forces a timeout event and state. *)
Definition timeout (w : World) : World :=
  let w := safeClearInterval idleHandleName w in
  let w := safeClearInterval timeoutHandleName w in
  let w := this (set_idling true) w in
  let w := this (set_running false) w in
  let w := this (set_countdown (NInt 0)) w in
  emit onTimeout JNull w.

Definition doCountdown (w : World) : World :=
  if negb (idling (self w)) then w
  else if leZero (countdown (self w)) then timeout w
  else
    let w := emit onTimeoutWarning (toJsVal (countdown (self w))) w in
    this (set_countdown (decr (countdown (self w)))) w.

Definition toggleState (w : World) : World :=
  let w := this (set_idling (negb (idling (self w)))) w in
  let w :=
    if idling (self w) then
      let w := emit onIdleStart JNull w in
      if bool_decide (timeoutVal (self w) > 0) then
        let w := this (set_countdown (NInt (timeoutVal (self w)))) w in
        let w := doCountdown w in
        let '(h, w) := setInterval CbDoCountdown 1000 w in
        this (set_timeoutHandle (Some h)) w
      else w
    else emit onIdleEnd JNull w in
  safeClearInterval idleHandleName w.

(** Starts watching for inactivity. *)
Definition watch (w : World) : World :=
  let w := safeClearInterval idleHandleName w in
  let w := safeClearInterval timeoutHandleName w in
  let w := if idling (self w) then toggleState w else w in
  let w := this (set_running true) w in
  let '(h, w) := setInterval CbToggleState (idle (self w) * 1000) w in
  this (set_idleHandle (Some h)) w.

(** Stops watching for inactivity. *)
Definition stop (w : World) : World :=
  let w := safeClearInterval idleHandleName w in
  let w := safeClearInterval timeoutHandleName w in
  let w := this (set_idling false) w in
  this (set_running false) w.

(** The resume test of [interrupt]. *)
Definition shouldResume (force : JsVal) (o : Idle) : bool :=
  isTrue force
  || AutoResume.eqb (autoResume o) AutoResume.idle
  || (AutoResume.eqb (autoResume o) AutoResume.notIdle && negb (idling o)).

(** Signals that user activity has occurred. *)
Definition interrupt (force : JsVal) (eventArgs : JsVal) (w : World) : World :=
  if negb (running (self w)) then w
  else
    let w := emit onInterrupt eventArgs w in
    if shouldResume force (self w) then watch w else w.

(** ** Virtual time *)

(** What the host runs when an interval fires. *)
Definition runCallback (cb : Callback) (w : World) : World :=
  match cb with
  | CbToggleState => toggleState w
  | CbDoCountdown => doCountdown w
  end.

(** The interval to fire next: the earliest one due by [deadline], the oldest
    among those due at the same instant. *)
Fixpoint nextDue (deadline : Z) (ts : list Timer) : option Timer :=
  match ts with
  | [] => None
  | t :: ts =>
      match nextDue deadline ts with
      | Some t' => if bool_decide (t_due t <= t_due t') then Some t else Some t'
      | None => if bool_decide (t_due t <= deadline) then Some t else None
      end
  end.

(** Re-arm a fired interval for its next period. *)
Definition rearm (h : Handle) (ts : list Timer) : list Timer :=
  map (fun t => if bool_decide (t_handle t = h)
                then mkTimer (t_handle t) (t_callback t) (t_period t) (t_due t + t_period t)
                else t) ts.

Definition fire (t : Timer) (w : World) : World :=
  let w := set_now (t_due t) w in
  let w := set_timers (rearm (t_handle t) (timers w)) w in
  runCallback (t_callback t) w.

(** Run every firing due by [deadline], then move the clock there.  [None]
    when [fuel] firings were not enough. *)
Fixpoint flush (fuel : nat) (deadline : Z) (w : World) : option World :=
  match nextDue deadline (timers w) with
  | None => Some (set_now deadline w)
  | Some t =>
      match fuel with
      | O => None
      | S fuel => flush fuel deadline (fire t w)
      end
  end.

(** Let [ms] milliseconds of virtual time pass. *)
Definition tick (fuel : nat) (ms : Z) (w : World) : option World :=
  flush fuel (now w + ms) w.

(** The notifications in a trace. *)
Definition emissions (tr : list Event) : list (Emitter * JsVal) :=
  omap (fun e => match e with Emit c v => Some (c, v) | _ => None end) tr.

(** ** Interrupt subscriptions *)

(** Modelled from the spec: the methods of [Interrupt] ([interrupt.ts] is not
    part of the sources at hand), after section 4.2.  A new subscription is
    inactive and has no listener. *)
Definition newInterrupt (src : InterruptSource) (w : World) : Ref * World :=
  (length (heap w), set_heap (heap w ++ [mkInterrupt src false None]) w).

(** Modelled from the spec: [subscribe(fn)] of the missing [Interrupt] class
    registers the listener. *)
Definition subscribe (r : Ref) (fn : Listener) (w : World) : World :=
  match heap w !! r with
  | Some i => set_heap (<[r := mkInterrupt (source i) (active i) (Some fn)]> (heap w)) w
  | None => w
  end.

(** Modelled from the spec: [unsubscribe()] of the missing [Interrupt] class
    permanently disconnects the listener registration. *)
Definition unsubscribe (r : Ref) (w : World) : World :=
  match heap w !! r with
  | Some i => set_heap (<[r := mkInterrupt (source i) (active i) None]> (heap w)) w
  | None => w
  end.

(** Modelled from the spec: [resume()] of the missing [Interrupt] class; if
    not already active, calls the source's attach hook (if provided) and
    marks active. *)
Definition resume (r : Ref) (w : World) : World :=
  match heap w !! r with
  | Some i =>
      if active i then w
      else
        let w := if attachFn (source i) then record (Attach (src_id (source i))) w else w in
        set_heap (<[r := mkInterrupt (source i) true (listener i)]> (heap w)) w
  | None => w
  end.

(** Modelled from the spec: [pause()] of the missing [Interrupt] class; if
    active, calls the source's detach hook (if provided) and marks
    inactive. *)
Definition pause (r : Ref) (w : World) : World :=
  match heap w !! r with
  | Some i =>
      if active i then
        let w := if detachFn (source i) then record (Detach (src_id (source i))) w else w in
        set_heap (<[r := mkInterrupt (source i) false (listener i)]> (heap w)) w
      else w
  | None => w
  end.

(** Body of the loop of [clearInterrupts]. *)
Definition clearOne (w : World) (sub : Ref) : World :=
  let w := pause sub w in
  unsubscribe sub w.

(** Pauses, unsubscribes, and clears the current interrupt subscriptions. *)
Definition clearInterrupts (w : World) : World :=
  let w := foldl clearOne w (interrupts (self w)) in
  this (set_interrupts []) w.

(** Body of the loop of [setInterrupts]. *)
Definition addSource (w : World) (src : InterruptSource) : World :=
  let '(sub, w) := newInterrupt src w in
  let w := subscribe sub ForwardToInterrupt w in
  let w := resume sub w in
  this (set_interrupts (interrupts (self w) ++ [sub])) w.

(** Sets interrupts from the specified sources. *)
Definition setInterrupts (sources : list InterruptSource) (w : World) : list Ref * World :=
  let w := clearInterrupts w in
  let w := foldl addSource w sources in
  (interrupts (self w), w).

(** Called by Angular when destroying the instance. *)
Definition ngOnDestroy (w : World) : World :=
  let w := stop w in
  clearInterrupts w.

(** * Vocabulary of the statements *)

(** The [clearInterval] call [safeClearInterval] makes for a stored handle. *)
Definition clears (h : option Handle) : list Event :=
  match h with
  | Some h => [ClearInterval h]
  | None => []
  end.

(** The handles the controller holds. *)
Definition pending (o : Idle) : list Handle :=
  match idleHandle o with Some h => [h] | None => [] end ++
  match timeoutHandle o with Some h => [h] | None => [] end.

(** The configuration part of the controller. *)
Definition config (o : Idle) : Z * Z * AutoResume.t * list Ref :=
  (idle o, timeoutVal o, autoResume o, interrupts o).

(** The notifications emitted on the way from [w] to a later world [w']. *)
Definition emittedBetween (w w' : World) : list (Emitter * JsVal) :=
  drop (length (emissions (trace w))) (emissions (trace w')).

(** A new service after [setIdle(d)] and [setTimeout(t)]. *)
Definition configured (d t : Z) : World :=
  snd (setTimeout (JNum t) (snd (setIdle d newWorld))).

(** A new service configured with [setIdle(1)] and [setTimeout(3)], then
    [watch()]. *)
Definition countdownScenario : World := watch (configured 1 3).




(** The scenario as the specification words it: one second per tick, idle
    start on the first, warnings 2, 1 and 0 on the next three, the timeout
    on the fifth. *)
Definition scenarioAsSpecified : Prop :=
  exists fuel w1 w2 w3 w4 w5,
    tick fuel 1000 countdownScenario = Some w1 /\
    tick fuel 1000 w1 = Some w2 /\
    tick fuel 1000 w2 = Some w3 /\
    tick fuel 1000 w3 = Some w4 /\
    tick fuel 1000 w4 = Some w5 /\
    (onIdleStart, JNull) ∈ emittedBetween countdownScenario w1 /\
    emittedBetween w1 w2 = [(onTimeoutWarning, JNum 2)] /\
    emittedBetween w2 w3 = [(onTimeoutWarning, JNum 1)] /\
    emittedBetween w3 w4 = [(onTimeoutWarning, JNum 0)] /\
    emittedBetween w4 w5 = [(onTimeout, JNull)] /\
    running (self w5) = false.

(** What [pause] followed by [unsubscribe] leaves of a subscription. *)
Definition detached (i : Interrupt) : Interrupt := mkInterrupt (source i) false None.

(** The subscription [setInterrupts] builds for a source. *)
Definition attachedTo (src : InterruptSource) : Interrupt :=
  mkInterrupt src true (Some ForwardToInterrupt).

(** The hook call [resume] makes on a new subscription of [src]. *)
Definition attachCall (src : InterruptSource) : list Event :=
  if attachFn src then [Attach (src_id src)] else [].

Definition isDetach (e : Event) : Prop :=
  match e with Detach _ => True | _ => False end.

(** The subscription behind [r] is attached to its source. *)
Definition attached (w : World) (r : Ref) : Prop :=
  exists i, heap w !! r = Some i /\ active i = true.

(** The worlds after each statement of the loop of [clearInterrupts]. *)
Fixpoint clearHistory (w : World) (subs : list Ref) : list World :=
  match subs with
  | [] => []
  | sub :: subs =>
      let w1 := pause sub w in
      let w2 := unsubscribe sub w1 in
      w1 :: w2 :: clearHistory w2 subs
  end.

(** The worlds after each statement of the loop of [setInterrupts]. *)
Fixpoint addHistory (w : World) (sources : list InterruptSource) : list World :=
  match sources with
  | [] => []
  | src :: sources =>
      let '(sub, w1) := newInterrupt src w in
      let w2 := subscribe sub ForwardToInterrupt w1 in
      let w3 := resume sub w2 in
      let w4 := this (set_interrupts (interrupts (self w3) ++ [sub])) w3 in
      w1 :: w2 :: w3 :: w4 :: addHistory w4 sources
  end.

(** Every world [setInterrupts] goes through, statement by statement, from
    the world it is called in to the one it returns. *)
Definition setInterruptsHistory (sources : list InterruptSource) (w : World) : list World :=
  w :: clearHistory w (interrupts (self w))
    ++ clearInterrupts w :: addHistory (clearInterrupts w) sources.

(** The host's intervals after [safeClearInterval] on a handle field. *)
Definition cleared (h : option Handle) (ts : list Timer) : list Timer :=
  match h with
  | Some h => filter (fun t => t_handle t <> h) ts
  | None => ts
  end.

(** The detach hooks [clearInterrupts] calls on a list of subscriptions: one
    for each that is active and whose source provides the hook. *)
Definition detachCalls (w : World) (subs : list Ref) : list Event :=
  subs ≫= fun r =>
    match heap w !! r with
    | Some i =>
        if active i && detachFn (source i) then [Detach (src_id (source i))] else []
    | None => []
    end.

(** ** Reachable worlds *)

(** One thing that can happen to the service: the embedder (or a subscribed
    source) calls a public method, or virtual time passes and the host runs
    the intervals that come due. *)
Inductive Step : World -> World -> Prop :=
| StepSetTimeout seconds w : Step w (snd (setTimeout seconds w))
| StepSetIdle seconds w : Step w (snd (setIdle seconds w))
| StepSetAutoResume value w : Step w (snd (setAutoResume value w))
| StepSetInterrupts sources w : Step w (snd (setInterrupts sources w))
| StepClearInterrupts w : Step w (clearInterrupts w)
| StepWatch w : Step w (watch w)
| StepStop w : Step w (stop w)
| StepTimeout w : Step w (timeout w)
| StepInterrupt force eventArgs w : Step w (interrupt force eventArgs w)
| StepDestroy w : Step w (ngOnDestroy w)
| StepTick fuel ms w w' : tick fuel ms w = Some w' -> Step w w'.

(** The worlds a newly constructed service can get into. *)
Inductive reachable : World -> Prop :=
| reach_new : reachable newWorld
| reach_step w w' : reachable w -> Step w w' -> reachable w'.

(** The four states of the controller, by its two flags. *)
Inductive Phase := Stopped | Active | Idling | TimedOut.

Definition phase (o : Idle) : Phase :=
  match running o, idling o with
  | false, false => Stopped
  | true, false => Active
  | true, true => Idling
  | false, true => TimedOut
  end.

(** The host's intervals match the state of the controller: while active,
    exactly the idle interval, held in [idleHandle]; while idling, at most
    the countdown interval, held in [timeoutHandle]; otherwise none. *)
Definition timersOk (w : World) : Prop :=
  match phase (self w) with
  | Active =>
      timeoutHandle (self w) = None /\
      exists h p d,
        idleHandle (self w) = Some h /\
        timers w = [mkTimer h CbToggleState p d] /\
        (h < next_handle w)%positive
  | Idling =>
      idleHandle (self w) = None /\
      match timeoutHandle (self w) with
      | Some h =>
          exists d,
            timers w = [mkTimer h CbDoCountdown 1000 d] /\
            (h < next_handle w)%positive
      | None => timers w = []
      end
  | Stopped | TimedOut => pending (self w) = [] /\ timers w = []
  end.

(** What the lifecycle methods and the interval callbacks leave alone: the
    configuration, the subscription list and the subscriptions. *)
Definition lifecycleFrame (w w' : World) : Prop :=
  idle (self w') = idle (self w) /\
  timeoutVal (self w') = timeoutVal (self w) /\
  autoResume (self w') = autoResume (self w) /\
  interrupts (self w') = interrupts (self w) /\
  heap w' = heap w.

(** What the configuration methods leave alone: the flags, the handles, the
    countdown, the host's intervals and clock, and the notifications. *)
Definition configFrame (w w' : World) : Prop :=
  running (self w') = running (self w) /\
  idling (self w') = idling (self w) /\
  idleHandle (self w') = idleHandle (self w) /\
  timeoutHandle (self w') = timeoutHandle (self w) /\
  countdown (self w') = countdown (self w) /\
  timers w' = timers w /\
  next_handle w' = next_handle w /\
  now w' = now w /\
  emissions (trace w') = emissions (trace w).

(** The subscriptions attached to their source are exactly the listed ones:
    every listed reference is a distinct object, active and carrying the
    controller's listener; every other object is inactive without listener. *)
Definition subscriptionsOk (w : World) : Prop :=
  NoDup (interrupts (self w)) /\
  (forall r, r ∈ interrupts (self w) ->
     exists src, heap w !! r = Some (attachedTo src)) /\
  (forall r i, r ∉ interrupts (self w) -> heap w !! r = Some i ->
     active i = false /\ listener i = None).

(** ** Sample worlds *)

(** Running and idling under the policy [AutoResume.notIdle]: idle duration
    1 second, timeout disabled, watched, and one second gone by. *)
Definition idlingNotIdle : World :=
  let w := snd (setAutoResume AutoResume.notIdle (configured 1 0)) in
  match tick 1 1000 (watch w) with
  | Some w => w
  | None => w
  end.

Definition mouse : InterruptSource := mkSource 0 true true.
Definition keyboard : InterruptSource := mkSource 1 true false.

(** A service already listening to the mouse. *)
Definition listening : World := snd (setInterrupts [mouse] newWorld).

(** * Properties *)

(** ** Basic facts *)

Lemma AutoResume_eqb_eq a b : AutoResume.eqb a b = true <-> a = b.
Proof. destruct a, b; simpl; split; congruence. Qed.

(** Clearing the two stored handles one after the other removes exactly the
    intervals the controller holds. *)
Lemma filter_pending (o : Idle) (ts : list Timer) :
  filter (fun t => t_handle t ∉ pending o) ts =
  match timeoutHandle o with
  | Some h2 => filter (fun t => t_handle t <> h2)
  | None => fun l => l
  end (match idleHandle o with
       | Some h1 => filter (fun t => t_handle t <> h1) ts
       | None => ts
       end).
Proof.
  unfold pending.
  destruct (idleHandle o) as [h1|], (timeoutHandle o) as [h2|]; simpl.
  - rewrite list_filter_filter. apply list_filter_iff. intros t.
    rewrite !elem_of_cons, elem_of_nil. tauto.
  - apply list_filter_iff. intros t. rewrite !elem_of_cons, elem_of_nil. tauto.
  - apply list_filter_iff. intros t. rewrite !elem_of_cons, elem_of_nil. tauto.
  - induction ts as [|t ts IH]; [done|].
    rewrite filter_cons_True by apply not_elem_of_nil. by rewrite IH.
Qed.

(** [watch] always asks the host for one new interval. *)
Lemma watch_next_handle (w : World) :
  next_handle (watch w) = Pos.succ (next_handle w).
Proof.
  destruct w as [[i t a s r g ih th c] hp ts nh n tr].
  destruct g, ih, th; reflexivity.
Qed.

Lemma watch_changes (w : World) : watch w <> w.
Proof.
  intros E. apply (f_equal next_handle) in E.
  rewrite watch_next_handle in E. lia.
Qed.

(** ** Construction *)

(** C10: a freshly constructed controller has idle duration 1200 seconds,
    timeout duration 30 seconds, the auto-resume policy [AutoResume.idle]
    (resume always), no subscriptions, and is neither running nor idling; no
    interval is scheduled before [watch] is called, and [watch] starts the
    monitoring. *)
Theorem newIdle_defaults :
  getIdle newWorld = 1200 /\
  getIdle newWorld = 20 * 60 /\
  getTimeout newWorld = 30 /\
  getAutoResume newWorld = AutoResume.idle /\
  getInterrupts newWorld = [] /\
  isRunning newWorld = false /\
  isIdling newWorld = false /\
  pending (self newWorld) = [] /\
  timers newWorld = [] /\
  isRunning (watch newWorld) = true /\
  timers (watch newWorld) = [mkTimer 1%positive CbToggleState 1200000 1200000].
Proof. repeat split. Qed.

(** ** Configuration *)

(** C5: [setIdle seconds] throws exactly when [seconds <= 0], and then
    changes nothing; for [seconds > 0] it returns [seconds], a following
    [getIdle] gives [seconds], and putting the old idle value back gives the
    old world: nothing but the idle duration changed. *)
Theorem setIdle_spec (seconds : Z) (w : World) :
  ((exists msg, fst (setIdle seconds w) = Throw msg) <-> seconds <= 0) /\
  (seconds <= 0 -> snd (setIdle seconds w) = w) /\
  (seconds > 0 ->
     fst (setIdle seconds w) = Return seconds /\
     getIdle (snd (setIdle seconds w)) = seconds /\
     this (set_idle (getIdle w)) (snd (setIdle seconds w)) = w).
Proof.
  unfold setIdle. case_bool_decide as Hs; simpl.
  - split; [split; [intros _; exact Hs | eauto] |].
    split; [reflexivity | lia].
  - split; [split; [intros [msg Hm]; discriminate | lia] |].
    split; [lia |].
    intros _. repeat split. destruct w as [[] ]; reflexivity.
Qed.

Lemma setIdle_spec_witness :
  fst (setIdle 5 newWorld) = Return 5 /\
  getIdle (snd (setIdle 5 newWorld)) = 5 /\
  this (set_idle (getIdle newWorld)) (snd (setIdle 5 newWorld)) = newWorld.
Proof.
  destruct (setIdle_spec 5 newWorld) as (_ & _ & H). apply H. lia.
Defined.

(** C6: [setTimeout false] stores and returns 0; [setTimeout n] for a number
    [n >= 0] stores and returns [n]; a negative number and every value that
    is neither a number nor [false] throws and leaves the world, the stored
    timeout included, as it was. *)
Theorem setTimeout_spec (w : World) :
  (fst (setTimeout (JBool false) w) = Return 0 /\
   getTimeout (snd (setTimeout (JBool false) w)) = 0) /\
  (forall n, n >= 0 ->
     fst (setTimeout (JNum n) w) = Return n /\
     getTimeout (snd (setTimeout (JNum n) w)) = n) /\
  (forall n, n < 0 ->
     exists msg, setTimeout (JNum n) w = (Throw msg, w)) /\
  (forall v, v <> JBool false -> (forall n, v <> JNum n) ->
     exists msg, setTimeout v w = (Throw msg, w)).
Proof.
  split; [split; reflexivity |].
  split; [| split].
  - intros n Hn. unfold setTimeout. rewrite bool_decide_eq_true_2 by exact Hn.
    split; reflexivity.
  - intros n Hn. unfold setTimeout. rewrite bool_decide_eq_false_2 by lia. eauto.
  - intros v Hb Hn. destruct v as [| |[]|n| |s]; simpl; eauto.
    + congruence.
    + destruct (Hn n eq_refl).
Qed.

Lemma setTimeout_spec_witness :
  (fst (setTimeout (JNum 3) newWorld) = Return 3 /\
   getTimeout (snd (setTimeout (JNum 3) newWorld)) = 3) /\
  (exists msg, setTimeout (JNum (-5)) newWorld = (Throw msg, newWorld)) /\
  (exists msg, setTimeout (JBool true) newWorld = (Throw msg, newWorld)).
Proof.
  destruct (setTimeout_spec newWorld) as (_ & Hok & Hneg & Hother).
  split; [apply Hok; lia |].
  split; [apply Hneg; lia |].
  apply Hother; [discriminate | intros n; discriminate].
Defined.

(** Only changing the timeout: the rest of the world is untouched when
    [setTimeout] succeeds. *)
Lemma setTimeout_frame (v : JsVal) (w : World) :
  this (set_timeoutVal (getTimeout w)) (snd (setTimeout v w)) = w.
Proof.
  destruct w as [[] ]. unfold setTimeout.
  destruct v as [| |[]|n| |s]; try reflexivity.
  case_bool_decide; reflexivity.
Qed.

(** ** Interrupts *)

(** C7: while the controller is not running, [interrupt] does nothing at
    all: the world, with its trace of emitted notifications, is returned
    as it was. *)
Theorem interrupt_not_running (force eventArgs : JsVal) (w : World) :
  running (self w) = false ->
  interrupt force eventArgs w = w.
Proof. intros Hr. unfold interrupt. rewrite Hr. reflexivity. Qed.

Lemma interrupt_not_running_witness :
  interrupt (JBool true) (JStr "mousemove") newWorld = newWorld.
Proof. apply (interrupt_not_running (JBool true) (JStr "mousemove") newWorld). reflexivity. Defined.

(** The resume test of [interrupt], read as a proposition. *)
Lemma shouldResume_iff (force : JsVal) (o : Idle) :
  shouldResume force o = true <->
  force = JBool true \/ autoResume o = AutoResume.idle \/
  (autoResume o = AutoResume.notIdle /\ idling o = false).
Proof.
  unfold shouldResume.
  rewrite !orb_true_iff, andb_true_iff, negb_true_iff, !AutoResume_eqb_eq.
  assert (isTrue force = true <-> force = JBool true) as ->; [| tauto].
  destruct force as [| |[]| | |]; simpl; split; congruence.
Qed.

(** C1: while the controller is running, [interrupt force eventArgs] first
    emits [onInterrupt] carrying [eventArgs] (nothing else of the world
    changes by that), and then runs [watch] on the resulting world exactly
    when [force] is [true], or the policy is [AutoResume.idle] (resume
    always), or the policy is [AutoResume.notIdle] and the controller is not
    idling; otherwise the world stays as the emission left it.  [watch]
    always changes the world, so the two outcomes are distinct. *)
Theorem interrupt_running (force eventArgs : JsVal) (w : World) :
  running (self w) = true ->
  let w1 := emit onInterrupt eventArgs w in
  let resumes :=
    force = JBool true \/ autoResume (self w) = AutoResume.idle \/
    (autoResume (self w) = AutoResume.notIdle /\ idling (self w) = false) in
  (trace w1 = trace w ++ [Emit onInterrupt eventArgs] /\
   self w1 = self w /\ timers w1 = timers w /\ heap w1 = heap w /\
   next_handle w1 = next_handle w /\ now w1 = now w) /\
  (resumes -> interrupt force eventArgs w = watch w1) /\
  (~ resumes -> interrupt force eventArgs w = w1) /\
  (interrupt force eventArgs w = watch w1 <-> resumes) /\
  (exists rest,
     trace (interrupt force eventArgs w) = trace w ++ Emit onInterrupt eventArgs :: rest).
Proof.
  intros Hr w1 resumes.
  assert (Hcond : shouldResume force (self w1) = true <-> resumes)
    by apply shouldResume_iff.
  assert (Hcall : interrupt force eventArgs w =
                  if shouldResume force (self w1) then watch w1 else w1).
  { unfold interrupt. rewrite Hr. reflexivity. }
  split; [repeat split |].
  rewrite Hcall. destruct (shouldResume force (self w1)) eqn:Hs.
  - assert (resumes) as Hyes by (apply Hcond; reflexivity).
    repeat split; try tauto.
    destruct w as [[i t a s r g ih th c] hp ts nh n tr].
    destruct g, ih, th; simpl; rewrite <- ?app_assoc; simpl; eauto.
  - assert (~ resumes) as Hno by (rewrite <- Hcond; discriminate).
    repeat split; try tauto.
    + intros E. symmetry in E. destruct (watch_changes _ E).
    + exists []. reflexivity.
Qed.

Lemma interrupt_running_witness :
  (running (self idlingNotIdle) = true /\ idling (self idlingNotIdle) = true) /\
  (interrupt (JBool true) JUndefined idlingNotIdle =
     watch (emit onInterrupt JUndefined idlingNotIdle) /\
   emissions (trace (interrupt (JBool true) JUndefined idlingNotIdle)) =
     [(onIdleStart, JNull); (onInterrupt, JUndefined); (onIdleEnd, JNull)]) /\
  (interrupt JUndefined JUndefined idlingNotIdle = emit onInterrupt JUndefined idlingNotIdle /\
   emissions (trace (interrupt JUndefined JUndefined idlingNotIdle)) =
     [(onIdleStart, JNull); (onInterrupt, JUndefined)] /\
   idling (self (interrupt JUndefined JUndefined idlingNotIdle)) = true).
Proof.
  split; [split; reflexivity |]. split.
  - split; [| reflexivity].
    apply (interrupt_running (JBool true) JUndefined idlingNotIdle); [reflexivity |].
    left; reflexivity.
  - split; [| split; reflexivity].
    apply (interrupt_running JUndefined JUndefined idlingNotIdle); [reflexivity |].
    intros [H | [H | [_ H]]]; discriminate.
Defined.

(** ** Lifecycle *)

Lemma emissions_app (a b : list Event) : emissions (a ++ b) = emissions a ++ emissions b.
Proof. apply omap_app. Qed.

(** C3: from every world, [timeout] cancels the intervals held in
    [idleHandle] and [timeoutHandle] and forgets both handles, sets
    [idling = true], [running = false], [countdown = 0], and emits
    [onTimeout] with payload [null] as its only notification; the
    configuration and the subscriptions are untouched. *)
Theorem timeout_spec (w : World) :
  let w' := timeout w in
  pending (self w') = [] /\
  timers w' = filter (fun t => t_handle t ∉ pending (self w)) (timers w) /\
  idling (self w') = true /\
  running (self w') = false /\
  countdown (self w') = NInt 0 /\
  trace w' = trace w ++ clears (idleHandle (self w)) ++ clears (timeoutHandle (self w))
                     ++ [Emit onTimeout JNull] /\
  emissions (trace w') = emissions (trace w) ++ [(onTimeout, JNull)] /\
  config (self w') = config (self w) /\
  heap w' = heap w.
Proof.
  cbv zeta. rewrite filter_pending.
  destruct w as [[i t a s r g ih th c] hp ts nh n tr].
  destruct ih, th; cbn; rewrite ?emissions_app, <- ?app_assoc, ?app_nil_r;
    repeat split.
Qed.

(** C4: from every world, [watch] cancels the intervals held in
    [idleHandle] and [timeoutHandle]; if the controller was idling it emits
    [onIdleEnd]; afterwards the controller is running and not idling, the
    countdown handle is forgotten, and [idleHandle] holds a newly scheduled
    interval of [idle * 1000] milliseconds whose callback is [toggleState]. *)
Theorem watch_spec (w : World) :
  let w' := watch w in
  let h := next_handle w in
  let ms := idle (self w) * 1000 in
  timers w' = filter (fun t => t_handle t ∉ pending (self w)) (timers w)
              ++ [mkTimer h CbToggleState ms (now w + ms)] /\
  idleHandle (self w') = Some h /\
  timeoutHandle (self w') = None /\
  running (self w') = true /\
  idling (self w') = false /\
  trace w' = trace w ++ clears (idleHandle (self w)) ++ clears (timeoutHandle (self w))
                     ++ (if idling (self w) then [Emit onIdleEnd JNull] else [])
                     ++ [SetInterval h CbToggleState ms] /\
  emissions (trace w') =
    emissions (trace w) ++ (if idling (self w) then [(onIdleEnd, JNull)] else []) /\
  runCallback CbToggleState = toggleState /\
  config (self w') = config (self w) /\
  countdown (self w') = countdown (self w) /\
  heap w' = heap w.
Proof.
  cbv zeta. rewrite filter_pending.
  destruct w as [[i t a s r g ih th c] hp ts nh n tr].
  destruct g, ih, th; cbn; rewrite ?emissions_app, <- ?app_assoc, ?app_nil_r;
    repeat split.
Qed.

(** C8: [stop] is idempotent.  From every world a second [stop] returns
    exactly the world the first one produced, so it adds nothing to the
    trace (no notification, no [clearInterval]) and leaves the host's
    intervals alone.  The first [stop] itself emits no notification, forgets
    both handles and leaves the controller neither idling nor running. *)
Theorem stop_idempotent (w : World) :
  stop (stop w) = stop w /\
  trace (stop (stop w)) = trace (stop w) /\
  timers (stop (stop w)) = timers (stop w) /\
  emissions (trace (stop w)) = emissions (trace w) /\
  trace (stop w) = trace w ++ clears (idleHandle (self w)) ++ clears (timeoutHandle (self w)) /\
  timers (stop w) = filter (fun t => t_handle t ∉ pending (self w)) (timers w) /\
  pending (self (stop w)) = [] /\
  idling (self (stop w)) = false /\
  running (self (stop w)) = false.
Proof.
  rewrite filter_pending.
  destruct w as [[i t a s r g ih th c] hp ts nh n tr].
  destruct ih, th; cbn; rewrite ?emissions_app, <- ?app_assoc, ?app_nil_r;
    repeat split.
Qed.

(** ** The countdown *)

(** More fuel never changes what [flush] returns. *)
Lemma flush_more_fuel (fuel : nat) :
  forall fuel' deadline w w',
    (fuel <= fuel')%nat -> flush fuel deadline w = Some w' -> flush fuel' deadline w = Some w'.
Proof.
  induction fuel as [|fuel IH]; intros fuel' deadline w w' Hle Hrun.
  - destruct fuel'; simpl in *; destruct (nextDue deadline (timers w)); congruence.
  - destruct fuel' as [|fuel']; [lia |]. simpl in *.
    destruct (nextDue deadline (timers w)); [| exact Hrun].
    apply IH; [lia | exact Hrun].
Qed.

(** So the outcome of a tick does not depend on the fuel that was enough. *)
Lemma tick_deterministic (f1 f2 : nat) (ms : Z) (w a b : World) :
  tick f1 ms w = Some a -> tick f2 ms w = Some b -> a = b.
Proof.
  unfold tick. intros Ha Hb.
  apply (flush_more_fuel f1 (max f1 f2)) in Ha; [| lia].
  apply (flush_more_fuel f2 (max f1 f2)) in Hb; [| lia].
  congruence.
Qed.

(** *** A single interval *)

Lemma rearm_single h cb p d : rearm h [mkTimer h cb p d] = [mkTimer h cb p (d + p)].
Proof.
  unfold rearm. cbn [map t_handle t_callback t_period t_due].
  by rewrite bool_decide_eq_true_2.
Qed.


Lemma filter_own_handle h cb p d :
  filter (fun t => t_handle t <> h) [mkTimer h cb p d] = [].
Proof. by rewrite filter_cons_False by (cbn; congruence). Qed.



(** Run the field updates and the host calls down to record constructors,
    innermost first. *)
Ltac run_setters :=
  cbv [this emit record clearInterval setInterval safeClearInterval
       set_timers set_next_handle set_now set_heap
       set_idle set_timeoutVal set_autoResume set_interrupts set_running set_idling
       set_idleHandle set_timeoutHandle set_countdown getHandle setHandle
       self heap timers next_handle now trace
       idle timeoutVal autoResume interrupts running idling idleHandle timeoutHandle
       countdown negb leZero toJsVal decr].

(** *** One second of countdown *)

Section Countdown.

Variable h : Handle.




End Countdown.






(** Replace the world a tick hypothesis talks about by the one the model
    computes with one firing. *)
Ltac run_tick H :=
  match type of H with
  | tick _ ?ms ?w = Some ?w' =>
      let r := eval vm_compute in (tick 1 ms w) in
      let E := fresh "E" in
      assert (E : tick 1 ms w = r) by (vm_compute; reflexivity);
      pose proof (tick_deterministic _ _ _ _ _ _ H E); subst w'; clear E
  end.

(** C2, as stated, fails: on the fourth tick the countdown has reached 0, so
    [doCountdown] calls [timeout] instead of emitting a warning carrying 0. *)
Lemma countdown_scenario_counterexample : ~ scenarioAsSpecified.
Proof.
  intros (fuel & w1 & w2 & w3 & w4 & w5 & H1 & H2 & H3 & H4 & _ & _ & _ & _ & Hw & _).
  run_tick H1. run_tick H2. run_tick H3. run_tick H4.
  vm_compute in Hw. discriminate Hw.
Qed.

(** C2, amended: with [setIdle(1)] and [setTimeout(3)], [watch()] emits
    nothing; the first second emits [onIdleStart] and, in the same firing,
    the warning carrying 3; the second second the warning carrying 2; the
    third the warning carrying 1; on the fourth the countdown is at 0 and
    [onTimeout] is emitted, [running] becoming false.  No warning carries 0
    and, no interval being left, later ticks emit nothing. *)
Theorem countdown_scenario :
  emissions (trace countdownScenario) = [] /\
  exists w1 w2 w3 w4,
    tick 1 1000 countdownScenario = Some w1 /\
    tick 1 1000 w1 = Some w2 /\
    tick 1 1000 w2 = Some w3 /\
    tick 1 1000 w3 = Some w4 /\
    emittedBetween countdownScenario w1 = [(onIdleStart, JNull); (onTimeoutWarning, JNum 3)] /\
    emittedBetween w1 w2 = [(onTimeoutWarning, JNum 2)] /\
    emittedBetween w2 w3 = [(onTimeoutWarning, JNum 1)] /\
    emittedBetween w3 w4 = [(onTimeout, JNull)] /\
    running (self w3) = true /\
    running (self w4) = false /\
    idling (self w4) = true /\
    ((onTimeoutWarning, JNum 0) ∉ emissions (trace w4)) /\
    timers w4 = [] /\
    forall fuel ms, tick fuel ms w4 = Some (set_now (now w4 + ms) w4).
Proof.
  split; [reflexivity |].
  do 4 eexists.
  do 4 (split; [vm_compute; reflexivity |]).
  repeat (split; [vm_compute; reflexivity |]).
  split; [| split; [reflexivity |]].
  - vm_compute emissions.
    intros Hin. repeat (apply elem_of_cons in Hin as [Hin | Hin]; [discriminate Hin |]).
    by apply elem_of_nil in Hin.
  - intros [|fuel] ms; reflexivity.
Qed.

(** ** Interrupt sources *)

(** One turn of the loop of [clearInterrupts] detaches the subscription it
    is given (if the object exists), calls at most its detach hook and
    leaves the controller alone. *)
Lemma clearOne_heap (w : World) (r : Ref) :
  heap (clearOne w r) = alter detached r (heap w) /\
  self (clearOne w r) = self w /\
  exists tr, trace (clearOne w r) = trace w ++ tr /\ Forall isDetach tr.
Proof.
  unfold clearOne, pause, unsubscribe.
  assert (Hal : forall (l : list Interrupt) i, l !! r = Some i ->
                   alter detached r l = <[r := detached i]> l).
  { intros l. revert r. induction l as [|x l IH]; intros [|r] i; simpl; try done.
    - intros [= ->]. reflexivity.
    - intros Hl. f_equal. by apply IH. }
  destruct (heap w !! r) as [i|] eqn:Hi.
  - assert (r < length (heap w))%nat as Hlt by (by eapply lookup_lt_Some).
    rewrite (Hal _ _ Hi).
    destruct (active i) eqn:Ha.
    + assert (Hh : forall w0, heap w0 = heap w ->
                heap (set_heap (<[r:=mkInterrupt (source i) false (listener i)]> (heap w0)) w0) !! r
                = Some (mkInterrupt (source i) false (listener i))).
      { intros w0 E. simpl. rewrite E. by apply list_lookup_insert_eq. }
      destruct (detachFn (source i)); rewrite Hh by reflexivity; simpl;
        rewrite list_insert_insert_eq; (split; [reflexivity | split; [reflexivity |]]).
      * exists [Detach (src_id (source i))]. split; [reflexivity |].
        repeat constructor.
      * exists []. rewrite app_nil_r. split; [reflexivity | constructor].
    + rewrite Hi. simpl. split; [| split; [reflexivity |]].
      * unfold detached. destruct i as [s a l]; simpl in *; subst a. reflexivity.
      * exists []. rewrite app_nil_r. split; [reflexivity | constructor].
  - rewrite Hi. split; [| split; [reflexivity |]].
    + symmetry. apply list_eq. intros j. rewrite list_lookup_alter.
      case_decide as Hj; [subst j; by rewrite Hi | reflexivity].
    + exists []. rewrite app_nil_r. split; [reflexivity | constructor].
Qed.

(** Detaching a list of references, read object by object. *)
Lemma detach_all_lookup (l : list nat) :
  forall (h : list Interrupt) (x : nat),
    foldl (fun h r => alter detached r h) h l !! x =
    if decide (x ∈ l) then detached <$> h !! x else h !! x.
Proof.
  induction l as [|r l IH]; intros h x; cbn [foldl].
  - rewrite decide_False by apply not_elem_of_nil. reflexivity.
  - rewrite IH, list_lookup_alter.
    destruct (decide (x ∈ r :: l)) as [H1 | H1], (decide (x ∈ l)) as [H2 | H2],
      (decide (r = x)) as [H3 | H3];
      rewrite elem_of_cons in H1;
      try (exfalso; intuition congruence);
      try subst x; destruct (h !! _); reflexivity.
Qed.

(** The whole loop of [clearInterrupts]. *)
Lemma clearLoop_spec (l : list nat) :
  forall w,
    heap (foldl clearOne w l) = foldl (fun h r => alter detached r h) (heap w) l /\
    self (foldl clearOne w l) = self w /\
    exists tr, trace (foldl clearOne w l) = trace w ++ tr /\ Forall isDetach tr.
Proof.
  induction l as [|r l IH]; intros w; simpl.
  - repeat split. exists []. by rewrite app_nil_r.
  - destruct (IH (clearOne w r)) as (Hh & Hs & tr2 & Ht & Hd).
    destruct (clearOne_heap w r) as (Hh1 & Hs1 & tr1 & Ht1 & Hd1).
    rewrite Hh, Hs, Ht, Hh1, Hs1, Ht1. repeat split.
    exists (tr1 ++ tr2). rewrite app_assoc. split; [reflexivity |].
    by apply Forall_app.
Qed.

Lemma detach_all_length (l : list nat) :
  forall h : list Interrupt, length (foldl (fun h r => alter detached r h) h l) = length h.
Proof.
  induction l as [|r l IH]; intros h; simpl; [reflexivity |].
  by rewrite IH, length_alter.
Qed.

(** The methods of a subscription never create or drop an object, and leave
    every object below the one they act on alone. *)
Lemma pause_length r w : length (heap (pause r w)) = length (heap w).
Proof.
  unfold pause. destruct (heap w !! r) as [i|]; [| reflexivity].
  destruct (active i); [| reflexivity].
  destruct (detachFn (source i)); simpl; by rewrite length_insert.
Qed.

Lemma unsubscribe_length r w : length (heap (unsubscribe r w)) = length (heap w).
Proof.
  unfold unsubscribe. destruct (heap w !! r) as [i|]; [| reflexivity].
  simpl; by rewrite length_insert.
Qed.

Lemma subscribe_take n r fn w :
  (n <= r)%nat -> take n (heap (subscribe r fn w)) = take n (heap w).
Proof.
  intros Hn. unfold subscribe. destruct (heap w !! r) as [i|]; [| reflexivity].
  simpl. rewrite take_insert. by rewrite decide_False by lia.
Qed.

Lemma resume_take n r w :
  (n <= r)%nat -> take n (heap (resume r w)) = take n (heap w).
Proof.
  intros Hn. unfold resume. destruct (heap w !! r) as [i|]; [| reflexivity].
  destruct (active i); [reflexivity |].
  destruct (attachFn (source i)); simpl; rewrite take_insert;
    by rewrite decide_False by lia.
Qed.

Lemma subscribe_length r fn w : length (heap (subscribe r fn w)) = length (heap w).
Proof.
  unfold subscribe. destruct (heap w !! r) as [i|]; [| reflexivity].
  simpl; by rewrite length_insert.
Qed.

Lemma resume_length r w : length (heap (resume r w)) = length (heap w).
Proof.
  unfold resume. destruct (heap w !! r) as [i|]; [| reflexivity].
  destruct (active i); [reflexivity |].
  destruct (attachFn (source i)); simpl; by rewrite length_insert.
Qed.

Create Rewrite HintDb heap_length.
#[local] Hint Rewrite pause_length unsubscribe_length subscribe_length resume_length
  : heap_length.

(** The loop of [clearInterrupts], statement by statement: it ends in the
    world the fold computes and creates no object on the way. *)
Lemma clearHistory_spec (l : list nat) :
  forall w,
    last (w :: clearHistory w l) = Some (foldl clearOne w l) /\
    forall wi, wi ∈ clearHistory w l -> length (heap wi) = length (heap w).
Proof.
  induction l as [|r l IH]; intros w.
  - split; [reflexivity |]. intros wi Hin. by apply elem_of_nil in Hin.
  - destruct (IH (clearOne w r)) as [Hlast Hlen].
    split.
    + change (clearHistory w (r :: l))
        with (pause r w :: clearOne w r :: clearHistory (clearOne w r) l).
      rewrite !last_cons in *. simpl foldl.
      destruct (last (clearHistory (clearOne w r) l)); simpl in *; congruence.
    + intros wi Hin. simpl in Hin.
      rewrite !elem_of_cons in Hin. destruct Hin as [-> | [-> | Hin]].
      * apply pause_length.
      * by autorewrite with heap_length.
      * rewrite (Hlen _ Hin). unfold clearOne.
        by autorewrite with heap_length.
Qed.

(** One turn of the loop of [setInterrupts]: a new object at the end of the
    heap, active, with the controller's listener; its reference is pushed;
    the attach hook of the source is called if there is one. *)
Lemma addSource_spec (w : World) (src : InterruptSource) :
  addSource w src =
  mkWorld (set_interrupts (interrupts (self w) ++ [length (heap w)]) (self w))
          (heap w ++ [attachedTo src]) (timers w) (next_handle w) (now w)
          (trace w ++ attachCall src).
Proof.
  unfold addSource, newInterrupt, subscribe, resume, attachCall, attachedTo.
  cbn [heap set_heap].
  rewrite (list_lookup_middle (heap w) [] _ (length (heap w)) eq_refl).
  cbn [heap set_heap source active listener].
  rewrite insert_app_r_alt, Nat.sub_diag by lia. cbn [insert list_insert].
  rewrite (list_lookup_middle (heap w) [] _ (length (heap w)) eq_refl).
  cbn [heap set_heap source active listener].
  destruct (attachFn src); cbn;
    rewrite insert_app_r_alt, Nat.sub_diag by lia; cbn; rewrite ?app_nil_r;
    reflexivity.
Qed.

(** The whole loop of [setInterrupts]. *)
Lemma addLoop_spec (sources : list InterruptSource) :
  forall w,
    foldl addSource w sources =
    mkWorld (set_interrupts (interrupts (self w) ++ seq (length (heap w)) (length sources))
                            (self w))
            (heap w ++ (attachedTo <$> sources)) (timers w) (next_handle w) (now w)
            (trace w ++ (sources ≫= attachCall)).
Proof.
  induction sources as [|src sources IH]; intros w.
  - destruct w as [[] ]; cbn. by rewrite !app_nil_r.
  - cbn [foldl]. rewrite IH, addSource_spec. cbn.
    rewrite length_app, Nat.add_1_r, <- !app_assoc. reflexivity.
Qed.

(** The loop of [setInterrupts], statement by statement: it ends in the
    world the fold computes and never touches the first [n] objects. *)
Lemma addHistory_spec (sources : list InterruptSource) :
  forall w n,
    (n <= length (heap w))%nat ->
    last (w :: addHistory w sources) = Some (foldl addSource w sources) /\
    forall wi, wi ∈ addHistory w sources -> take n (heap wi) = take n (heap w).
Proof.
  induction sources as [|src sources IH]; intros w n Hn.
  - split; [reflexivity |]. intros wi Hin. by apply elem_of_nil in Hin.
  - set (w1 := snd (newInterrupt src w)).
    set (w2 := subscribe (length (heap w)) ForwardToInterrupt w1).
    set (w3 := resume (length (heap w)) w2).
    assert (Hstep : addHistory w (src :: sources) =
                    w1 :: w2 :: w3 :: addSource w src :: addHistory (addSource w src) sources)
      by reflexivity.
    assert (H1 : take n (heap w1) = take n (heap w))
      by (subst w1; cbn; by rewrite take_app_le).
    assert (H2 : take n (heap w2) = take n (heap w))
      by (subst w2; by rewrite subscribe_take).
    assert (H3 : take n (heap w3) = take n (heap w))
      by (subst w3; by rewrite resume_take).
    assert (H4 : take n (heap (addSource w src)) = take n (heap w))
      by (rewrite addSource_spec; cbn; by rewrite take_app_le).
    destruct (IH (addSource w src) n) as [Hlast Hinv].
    { rewrite addSource_spec. cbn. rewrite length_app. lia. }
    rewrite Hstep. split.
    + rewrite !last_cons in *. cbn [foldl].
      destruct (last (addHistory (addSource w src) sources)); simpl in *; congruence.
    + intros wi Hin. rewrite !elem_of_cons in Hin.
      destruct Hin as [-> | [-> | [-> | [-> | Hin]]]]; try assumption.
      by rewrite (Hinv _ Hin).
Qed.

(** C9: [setInterrupts] starts by running [clearInterrupts], which pauses
    and unsubscribes every existing subscription (each ends inactive, without
    listener) and empties the list without creating any object; only then does
    it build, for each source in order, a new subscription with the
    controller's listener, active, and store it.  It returns the new list.
    The detach hooks it calls all come before the attach hooks, and in no
    world it goes through, statement by statement, are an old and a new
    subscription attached together. *)
Theorem setInterrupts_spec (sources : list InterruptSource) (w : World) :
  Forall (fun r => r < length (heap w))%nat (interrupts (self w)) ->
  let olds := interrupts (self w) in
  let n := length (heap w) in
  let w1 := clearInterrupts w in
  let w' := snd (setInterrupts sources w) in
  (interrupts (self w1) = [] /\
   length (heap w1) = n /\
   (forall r, r ∈ olds -> heap w1 !! r = detached <$> heap w !! r) /\
   (forall r, r ∉ olds -> heap w1 !! r = heap w !! r)) /\
  (w' = foldl addSource w1 sources /\
   heap w' = heap w1 ++ (attachedTo <$> sources) /\
   fst (setInterrupts sources w) = seq n (length sources) /\
   interrupts (self w') = fst (setInterrupts sources w)) /\
  (exists detaches,
     Forall isDetach detaches /\
     trace w' = trace w ++ detaches ++ (sources ≫= attachCall)) /\
  (last (setInterruptsHistory sources w) = Some w' /\
   forall wi, wi ∈ setInterruptsHistory sources w ->
     ~ exists old new,
         old ∈ olds /\ (n <= new)%nat /\ attached wi old /\ attached wi new) /\
  Forall (fun r => r < length (heap w'))%nat (interrupts (self w')).
Proof.
  intros Hwf olds n w1 w'.
  destruct (clearLoop_spec olds w) as (Hheap & Hself & detaches & Htrace & Hdet).
  assert (Hh1 : heap w1 = foldl (fun h r => alter detached r h) (heap w) olds)
    by exact Hheap.
  assert (Hlen1 : length (heap w1) = n)
    by (rewrite Hh1; apply detach_all_length).
  assert (Hold : forall r, r ∈ olds -> heap w1 !! r = detached <$> heap w !! r).
  { intros r Hr. rewrite Hh1, detach_all_lookup. by rewrite decide_True. }
  assert (Hw' : w' = foldl addSource w1 sources) by reflexivity.
  assert (Hheap' : heap w' = heap w1 ++ (attachedTo <$> sources))
    by (rewrite Hw', addLoop_spec; reflexivity).
  assert (Hsubs : interrupts (self w') = seq n (length sources))
    by (rewrite Hw', addLoop_spec; cbn [self interrupts set_interrupts];
        rewrite Hlen1; reflexivity).
  split; [| split; [| split; [| split]]].
  - repeat split; try assumption.
    intros r Hr. rewrite Hh1, detach_all_lookup. by rewrite decide_False.
  - repeat split; assumption.
  - exists detaches. split; [exact Hdet |].
    assert (Htr1 : trace w1 = trace w ++ detaches) by exact Htrace.
    rewrite Hw', addLoop_spec. cbn [trace]. rewrite Htr1, <- app_assoc. reflexivity.
  - destruct (clearHistory_spec olds w) as [_ Hclear].
    destruct (addHistory_spec sources w1 n) as [Hlast Hadd]; [lia |].
    split.
    + unfold setInterruptsHistory. fold w1.
      rewrite last_cons, last_app, Hlast. reflexivity.
    + intros wi Hin (old & new & Hold_in & Hnew & (io & Hio & Hact) & (inew & Hinew & _)).
      assert (Hphase1 : length (heap wi) = n -> False).
      { intros E. apply lookup_lt_Some in Hinew. lia. }
      assert (Hphase2 : take n (heap wi) = take n (heap w1) -> False).
      { intros E.
        assert (old < n)%nat as Hlt by (by eapply Forall_forall in Hwf).
        assert (heap w1 !! old = Some io) as Hio1.
        { rewrite <- Hio, <- (lookup_take_lt (heap w1) n old Hlt), <- E.
          by rewrite lookup_take_lt. }
        rewrite (Hold _ Hold_in) in Hio1.
        destruct (heap w !! old) as [i0|]; [| discriminate Hio1].
        injection Hio1 as <-. discriminate Hact. }
      unfold setInterruptsHistory in Hin. fold w1 olds in Hin.
      rewrite elem_of_cons, elem_of_app, elem_of_cons in Hin.
      destruct Hin as [-> | [Hin | [-> | Hin]]].
      * by apply Hphase1.
      * apply Hphase1. by apply Hclear.
      * by apply Hphase1.
      * apply Hphase2. by apply Hadd.
  - rewrite Hsubs, Hheap', length_app, length_fmap, Hlen1.
    apply Forall_forall. intros r Hr. apply elem_of_seq in Hr. lia.
Qed.

Lemma setInterrupts_spec_witness :
  Forall (fun r => r < length (heap listening))%nat (interrupts (self listening)) /\
  fst (setInterrupts [keyboard; mouse] listening) = [1; 2]%nat /\
  heap (snd (setInterrupts [keyboard; mouse] listening)) =
    [detached (attachedTo mouse); attachedTo keyboard; attachedTo mouse] /\
  trace (snd (setInterrupts [keyboard; mouse] listening)) =
    [Attach 0; Detach 0; Attach 1; Attach 0].
Proof.
  assert (Hwf : Forall (fun r => r < length (heap listening))%nat
                       (interrupts (self listening)))
    by (repeat constructor).
  split; [exact Hwf |].
  pose proof (setInterrupts_spec [keyboard; mouse] listening Hwf) as H.
  cbv zeta in H. destruct H as (_ & (_ & _ & H & _) & _).
  split; [exact H |]. split; reflexivity.
Defined.

(** ** Teardown *)

Lemma stop_frame (w : World) :
  heap (stop w) = heap w /\
  interrupts (self (stop w)) = interrupts (self w) /\
  pending (self (stop w)) = [] /\
  running (self (stop w)) = false /\
  idling (self (stop w)) = false.
Proof.
  destruct w as [[i t a s r g ih th c] hp ts nh n tr].
  destruct ih, th; repeat split.
Qed.

(** [ngOnDestroy] leaves the controller stopped, without a stored interval
    handle and without subscriptions, and every former subscription detached
    from its source. *)
Lemma ngOnDestroy_spec (w : World) :
  pending (self (ngOnDestroy w)) = [] /\
  running (self (ngOnDestroy w)) = false /\
  idling (self (ngOnDestroy w)) = false /\
  interrupts (self (ngOnDestroy w)) = [] /\
  forall r, r ∈ interrupts (self w) ->
    heap (ngOnDestroy w) !! r = detached <$> heap w !! r.
Proof.
  destruct (stop_frame w) as (Hheap & Hsubs & Hpend & Hrun & Hidl).
  destruct (clearLoop_spec (interrupts (self (stop w))) (stop w)) as (Hh & Hs & _).
  unfold ngOnDestroy, clearInterrupts.
  set (w1 := foldl clearOne (stop w) (interrupts (self (stop w)))) in *.
  assert (Hp : pending (set_interrupts [] (self w1)) = pending (self w1)) by reflexivity.
  cbn [this self heap interrupts set_interrupts running idling].
  rewrite Hp, Hs, Hh, Hsubs, Hheap. repeat split; try assumption.
  intros r Hr. rewrite detach_all_lookup. by rewrite decide_True.
Qed.

(** * Reachable worlds: frames and invariants *)

(** ** The lifecycle methods on an explicit world *)

Ltac split_tests :=
  repeat match goal with
         | |- context [bool_decide ?P] => destruct (bool_decide P); run_setters
         end.

(** Run the methods from the outermost call inwards, settling the tests of
    each before unfolding the next. *)
Ltac run_methods :=
  unfold interrupt, shouldResume, watch, stop; run_setters; split_tests;
  unfold toggleState; run_setters; split_tests;
  unfold doCountdown; run_setters; split_tests;
  unfold timeout; run_setters; split_tests.

Section Shapes.

Variables (i t : Z) (a : AutoResume.t) (s : list nat) (r g : bool).
Variables (ih th : option Handle) (c : JsNumber).
Variables (hp : list Interrupt) (ts : list Timer) (nh : Handle) (n : Z) (tr : list Event).

Local Abbreviation W := (mkWorld (mkIdle i t a s r g ih th c) hp ts nh n tr).

Lemma timeout_shape :
  timeout W =
  mkWorld (mkIdle i t a s false true None None (NInt 0)) hp (cleared th (cleared ih ts))
          nh n (tr ++ clears ih ++ clears th ++ [Emit onTimeout JNull]).
Proof.
  destruct ih, th; unfold timeout; run_setters; cbn [cleared clears app];
    rewrite <- ?app_assoc; reflexivity.
Qed.

Lemma stop_shape :
  stop W =
  mkWorld (mkIdle i t a s false false None None c) hp (cleared th (cleared ih ts))
          nh n (tr ++ clears ih ++ clears th).
Proof.
  destruct ih, th; unfold stop; run_setters; cbn [cleared clears app];
    rewrite <- ?app_assoc, ?app_nil_r; reflexivity.
Qed.

Lemma doCountdown_shape :
  doCountdown W =
  if negb g then W
  else if leZero c then timeout W
  else mkWorld (mkIdle i t a s r g ih th (decr c)) hp ts nh n
               (tr ++ [Emit onTimeoutWarning (toJsVal c)]).
Proof. unfold doCountdown. run_setters. destruct g; reflexivity. Qed.

Lemma toggleState_shape :
  toggleState W =
  if g then
    mkWorld (mkIdle i t a s r false None th c) hp (cleared ih ts) nh n
            (tr ++ Emit onIdleEnd JNull :: clears ih)
  else if bool_decide (t > 0) then
    mkWorld (mkIdle i t a s r true None (Some nh) (NInt (t - 1))) hp
            (cleared ih (ts ++ [mkTimer nh CbDoCountdown 1000 (n + 1000)]))
            (Pos.succ nh) n
            (tr ++ Emit onIdleStart JNull :: Emit onTimeoutWarning (JNum t)
                :: SetInterval nh CbDoCountdown 1000 :: clears ih)
  else
    mkWorld (mkIdle i t a s r true None th c) hp (cleared ih ts) nh n
            (tr ++ Emit onIdleStart JNull :: clears ih).
Proof.
  destruct g.
  - destruct ih; unfold toggleState; run_setters; cbn [cleared clears app];
      rewrite <- ?app_assoc; reflexivity.
  - unfold toggleState. run_setters. case_bool_decide as Ht.
    + unfold doCountdown. run_setters.
      rewrite bool_decide_eq_false_2 by lia.
      destruct ih; run_setters; cbn [cleared clears app]; rewrite <- ?app_assoc;
        reflexivity.
    + destruct ih; run_setters; cbn [cleared clears app]; rewrite <- ?app_assoc;
        reflexivity.
Qed.

Lemma watch_shape :
  watch W =
  mkWorld (mkIdle i t a s true false (Some nh) None c) hp
          (cleared th (cleared ih ts) ++ [mkTimer nh CbToggleState (i * 1000) (n + i * 1000)])
          (Pos.succ nh) n
          (tr ++ clears ih ++ clears th
              ++ (if g then [Emit onIdleEnd JNull] else [])
              ++ [SetInterval nh CbToggleState (i * 1000)]).
Proof.
  destruct g, ih, th; unfold watch, toggleState; run_setters;
    cbn [cleared clears app]; rewrite <- ?app_assoc; reflexivity.
Qed.

Lemma interrupt_shape force eventArgs :
  interrupt force eventArgs W =
  if negb r then W
  else if shouldResume force (self W)
       then watch (mkWorld (mkIdle i t a s r g ih th c) hp ts nh n
                           (tr ++ [Emit onInterrupt eventArgs]))
       else mkWorld (mkIdle i t a s r g ih th c) hp ts nh n
                    (tr ++ [Emit onInterrupt eventArgs]).
Proof. unfold interrupt. destruct r; reflexivity. Qed.

End Shapes.

(** ** What each kind of method leaves alone *)

Lemma lifecycleFrame_trans w1 w2 w3 :
  lifecycleFrame w1 w2 -> lifecycleFrame w2 w3 -> lifecycleFrame w1 w3.
Proof.
  unfold lifecycleFrame. intros (?&?&?&?&?) (?&?&?&?&?). repeat split; congruence.
Qed.

Lemma timeout_frame w : lifecycleFrame w (timeout w).
Proof. destruct w as [[] ]. rewrite timeout_shape. repeat split. Qed.

Lemma stop_lifecycleFrame w : lifecycleFrame w (stop w).
Proof. destruct w as [[] ]. rewrite stop_shape. repeat split. Qed.

Lemma watch_frame w : lifecycleFrame w (watch w).
Proof. destruct w as [[] ]. rewrite watch_shape. repeat split. Qed.

Lemma doCountdown_frame w : lifecycleFrame w (doCountdown w).
Proof.
  destruct w as [[i t a s r g ih th c] hp ts nh n tr]. rewrite doCountdown_shape.
  destruct g, (leZero c); cbn [negb]; rewrite ?timeout_shape; repeat split.
Qed.

Lemma toggleState_frame w : lifecycleFrame w (toggleState w).
Proof.
  destruct w as [[i t a s r g ih th c] hp ts nh n tr]. rewrite toggleState_shape.
  destruct g; [| case_bool_decide]; repeat split.
Qed.

Lemma interrupt_frame force eventArgs w : lifecycleFrame w (interrupt force eventArgs w).
Proof.
  destruct w as [[i t a s r g ih th c] hp ts nh n tr]. rewrite interrupt_shape.
  destruct r, (shouldResume _ _); cbn [negb]; rewrite ?watch_shape; repeat split.
Qed.

Lemma fire_frame t w : lifecycleFrame w (fire t w).
Proof.
  unfold fire. destruct (t_callback t); cbn [runCallback].
  - eapply lifecycleFrame_trans; [| apply toggleState_frame]. repeat split.
  - eapply lifecycleFrame_trans; [| apply doCountdown_frame]. repeat split.
Qed.

Lemma flush_frame fuel :
  forall deadline w w', flush fuel deadline w = Some w' -> lifecycleFrame w w'.
Proof.
  induction fuel as [|fuel IH]; intros deadline w w'; cbn [flush];
    destruct (nextDue deadline (timers w)) as [t|]; try discriminate.
  - intros [= <-]. repeat split.
  - intros Hrun. eapply lifecycleFrame_trans; [apply fire_frame | eauto].
  - intros [= <-]. repeat split.
Qed.

Lemma emissions_detaches (tr : list Event) : Forall isDetach tr -> emissions tr = [].
Proof.
  induction 1 as [|e tr He _ IH]; [reflexivity |].
  destruct e; try destruct He. exact IH.
Qed.

Lemma emissions_attachCalls (sources : list InterruptSource) :
  emissions (sources ≫= attachCall) = [].
Proof.
  induction sources as [|src sources IH]; [reflexivity |].
  cbn [mbind list_bind]. rewrite emissions_app, IH.
  unfold attachCall. destruct (attachFn src); reflexivity.
Qed.

(** The methods of a subscription touch neither the controller nor the
    host's intervals and clock. *)
Lemma clearOne_host (w : World) (r : nat) :
  timers (clearOne w r) = timers w /\
  next_handle (clearOne w r) = next_handle w /\
  now (clearOne w r) = now w.
Proof.
  unfold clearOne, pause, unsubscribe.
  destruct (heap w !! r) as [i|] eqn:Hi; [| rewrite Hi; repeat split].
  destruct (active i), (detachFn (source i));
    repeat match goal with
           | |- context [match ?l !! r with _ => _ end] => destruct (l !! r)
           end; repeat split.
Qed.

Lemma clearLoop_host (l : list nat) :
  forall w,
    timers (foldl clearOne w l) = timers w /\
    next_handle (foldl clearOne w l) = next_handle w /\
    now (foldl clearOne w l) = now w.
Proof.
  induction l as [|r l IH]; intros w; cbn [foldl]; [repeat split |].
  destruct (IH (clearOne w r)) as (-> & -> & ->). apply clearOne_host.
Qed.

Lemma setIdle_configFrame seconds w : configFrame w (snd (setIdle seconds w)).
Proof. destruct w as [[] ]. unfold setIdle. case_bool_decide; repeat split. Qed.

Lemma setTimeout_configFrame seconds w : configFrame w (snd (setTimeout seconds w)).
Proof.
  destruct w as [[] ]. unfold setTimeout.
  destruct seconds as [| |[]|z| |]; try case_bool_decide; repeat split.
Qed.

Lemma setAutoResume_configFrame value w : configFrame w (snd (setAutoResume value w)).
Proof. destruct w as [[] ]. repeat split. Qed.

Lemma clearInterrupts_configFrame w : configFrame w (clearInterrupts w).
Proof.
  destruct (clearLoop_spec (interrupts (self w)) w) as (_ & Hs & tr & Ht & Hd).
  destruct (clearLoop_host (interrupts (self w)) w) as (Hts & Hnh & Hn).
  unfold configFrame, clearInterrupts.
  cbn [this self timers next_handle now trace running idling idleHandle timeoutHandle
       countdown set_interrupts].
  rewrite Hs, Hts, Hnh, Hn, Ht, emissions_app, (emissions_detaches _ Hd), app_nil_r.
  repeat split.
Qed.

Lemma addLoop_configFrame sources w : configFrame w (foldl addSource w sources).
Proof.
  rewrite addLoop_spec. unfold configFrame. cbn.
  rewrite emissions_app, emissions_attachCalls, app_nil_r. repeat split.
Qed.

Lemma configFrame_trans w1 w2 w3 :
  configFrame w1 w2 -> configFrame w2 w3 -> configFrame w1 w3.
Proof.
  unfold configFrame. intros (?&?&?&?&?&?&?&?&?) (?&?&?&?&?&?&?&?&?).
  repeat split; congruence.
Qed.

Lemma setInterrupts_configFrame sources w : configFrame w (snd (setInterrupts sources w)).
Proof.
  eapply configFrame_trans; [apply clearInterrupts_configFrame |].
  apply addLoop_configFrame.
Qed.

(** ** The intervals match the state *)

Lemma nextDue_In (deadline : Z) (ts : list Timer) (t : Timer) :
  nextDue deadline ts = Some t -> t ∈ ts.
Proof.
  revert t. induction ts as [|x ts IH]; intros t; cbn [nextDue]; [discriminate |].
  destruct (nextDue deadline ts) as [t'|].
  - case_bool_decide; intros [= <-]; rewrite elem_of_cons; auto.
  - case_bool_decide; [| discriminate]. intros [= <-]. rewrite elem_of_cons; auto.
Qed.

Lemma filter_other_handle h h' cb p d :
  h' <> h -> filter (fun t => t_handle t <> h) [mkTimer h' cb p d] = [mkTimer h' cb p d].
Proof. intros Hne. by rewrite filter_cons_True by (cbn; congruence). Qed.

(** Every interval the host holds is one the controller has the handle of. *)
Lemma timersOk_owned w :
  timersOk w ->
  cleared (timeoutHandle (self w)) (cleared (idleHandle (self w)) (timers w)) = [].
Proof.
  destruct w as [[i t a s r g ih th c] hp ts nh n tr].
  unfold timersOk, phase, pending; cbn.
  destruct r, g; cbn.
  - intros [-> H]. destruct th as [h|]; [destruct H as (d & -> & _) | subst ts];
      cbn; [apply filter_own_handle | reflexivity].
  - intros [-> (h & p & d & -> & -> & _)]. cbn. apply filter_own_handle.
  - destruct ih, th; intros [[=] ->]; reflexivity.
  - destruct ih, th; intros [[=] ->]; reflexivity.
Qed.

Lemma watch_timersOk w : timersOk w -> timersOk (watch w).
Proof.
  intros Hok. pose proof (timersOk_owned w Hok) as Hown.
  destruct w as [[i t a s r g ih th c] hp ts nh n tr]. cbn in Hown.
  rewrite watch_shape, Hown. unfold timersOk, phase; cbn.
  split; [reflexivity |]. do 3 eexists. repeat split. lia.
Qed.

Lemma stop_timersOk w : timersOk w -> timersOk (stop w).
Proof.
  intros Hok. pose proof (timersOk_owned w Hok) as Hown.
  destruct w as [[i t a s r g ih th c] hp ts nh n tr]. cbn in Hown.
  rewrite stop_shape, Hown. split; reflexivity.
Qed.

Lemma timeout_timersOk w : timersOk w -> timersOk (timeout w).
Proof.
  intros Hok. pose proof (timersOk_owned w Hok) as Hown.
  destruct w as [[i t a s r g ih th c] hp ts nh n tr]. cbn in Hown.
  rewrite timeout_shape, Hown. split; reflexivity.
Qed.

Lemma interrupt_timersOk force eventArgs w :
  timersOk w -> timersOk (interrupt force eventArgs w).
Proof.
  destruct w as [[i t a s r g ih th c] hp ts nh n tr]. intros Hok.
  rewrite interrupt_shape.
  destruct r; cbn [negb]; [| exact Hok].
  destruct (shouldResume _ _); [apply watch_timersOk |]; exact Hok.
Qed.

Lemma fire_timersOk t w : t ∈ timers w -> timersOk w -> timersOk (fire t w).
Proof.
  destruct w as [[i tv a s r g ih th c] hp ts nh n tr].
  unfold timersOk at 1, phase; cbn. intros Hin Hok.
  destruct r, g; cbn in Hok.
  - (* idling: only the countdown interval can fire *)
    destruct Hok as [-> Hok]. destruct th as [h|]; [| subst ts; by apply elem_of_nil in Hin].
    destruct Hok as (d & -> & Hlt). apply list_elem_of_singleton in Hin as ->.
    unfold fire, set_timers, set_now; cbn [timers t_handle t_callback t_due self heap
      next_handle now trace runCallback].
    rewrite rearm_single, doCountdown_shape. cbn [negb].
    destruct (leZero c).
    + rewrite timeout_shape. cbn [cleared]. rewrite filter_own_handle. split; reflexivity.
    + unfold timersOk, phase; cbn. split; [reflexivity |]. eauto.
  - (* active: only the idle interval can fire *)
    destruct Hok as [-> (h & p & d & -> & -> & Hlt)].
    apply list_elem_of_singleton in Hin as ->.
    unfold fire, set_timers, set_now; cbn [timers t_handle t_callback t_due self heap
      next_handle now trace runCallback].
    rewrite rearm_single, toggleState_shape.
    case_bool_decide.
    + unfold timersOk, phase; cbn -[filter]. split; [reflexivity |].
      rewrite filter_cons_False by (cbn; congruence).
      rewrite filter_other_handle by lia. eexists. split; [reflexivity | lia].
    + unfold timersOk, phase; cbn -[filter]. rewrite filter_own_handle. split; reflexivity.
  - destruct Hok as [_ ->]. by apply elem_of_nil in Hin.
  - destruct Hok as [_ ->]. by apply elem_of_nil in Hin.
Qed.

Lemma flush_timersOk fuel :
  forall deadline w w', flush fuel deadline w = Some w' -> timersOk w -> timersOk w'.
Proof.
  induction fuel as [|fuel IH]; intros deadline w w'; cbn [flush];
    destruct (nextDue deadline (timers w)) as [t|] eqn:Hdue; try discriminate.
  - intros [= <-] Hok. exact Hok.
  - intros Hrun Hok. eapply IH; [exact Hrun |].
    apply fire_timersOk; [by eapply nextDue_In | exact Hok].
  - intros [= <-] Hok. exact Hok.
Qed.

Lemma configFrame_timersOk w w' : configFrame w w' -> timersOk w -> timersOk w'.
Proof.
  intros (Hr & Hg & Hih & Hth & _ & Hts & Hnh & _). unfold timersOk, phase, pending.
  by rewrite Hr, Hg, Hih, Hth, Hts, Hnh.
Qed.

Lemma step_timersOk w w' : Step w w' -> timersOk w -> timersOk w'.
Proof.
  intros [v w0|s w0|a w0|srcs w0|w0|w0|w0|w0|f e w0|w0|fuel ms w0 w1 Htick] Hok.
  - eapply configFrame_timersOk; [apply setTimeout_configFrame | exact Hok].
  - eapply configFrame_timersOk; [apply setIdle_configFrame | exact Hok].
  - eapply configFrame_timersOk; [apply setAutoResume_configFrame | exact Hok].
  - eapply configFrame_timersOk; [apply setInterrupts_configFrame | exact Hok].
  - eapply configFrame_timersOk; [apply clearInterrupts_configFrame | exact Hok].
  - by apply watch_timersOk.
  - by apply stop_timersOk.
  - by apply timeout_timersOk.
  - by apply interrupt_timersOk.
  - eapply configFrame_timersOk; [apply clearInterrupts_configFrame |].
    by apply stop_timersOk.
  - by eapply flush_timersOk.
Qed.

Lemma reachable_timersOk w : reachable w -> timersOk w.
Proof.
  induction 1 as [|w w' _ IH Hstep]; [split; reflexivity |].
  by eapply step_timersOk.
Qed.

(** ** The configuration stays valid *)

Lemma clearInterrupts_self w : self (clearInterrupts w) = set_interrupts [] (self w).
Proof.
  destruct (clearLoop_spec (interrupts (self w)) w) as (_ & Hs & _).
  unfold clearInterrupts. cbn [this self]. by rewrite Hs.
Qed.




(** ** The attached subscriptions are the listed ones *)

Lemma lifecycleFrame_subscriptionsOk w w' :
  lifecycleFrame w w' -> subscriptionsOk w -> subscriptionsOk w'.
Proof. intros (_ & _ & _ & Hi & Hh). unfold subscriptionsOk. by rewrite Hi, Hh. Qed.

Lemma clearInterrupts_subscriptionsOk w :
  subscriptionsOk w -> subscriptionsOk (clearInterrupts w).
Proof.
  intros (_ & _ & Hrest).
  destruct (clearLoop_spec (interrupts (self w)) w) as (Hh & _).
  assert (Hheap : heap (clearInterrupts w) =
                  foldl (fun h r => alter detached r h) (heap w) (interrupts (self w)))
    by exact Hh.
  unfold subscriptionsOk. rewrite clearInterrupts_self, Hheap. cbn [interrupts set_interrupts].
  split; [constructor |]. split.
  - intros r Hr. by apply elem_of_nil in Hr.
  - intros r i _. rewrite detach_all_lookup. case_decide as Hin.
    + destruct (heap w !! r); [| discriminate]. intros [= <-]. split; reflexivity.
    + by apply Hrest.
Qed.

Lemma addLoop_subscriptionsOk sources w :
  interrupts (self w) = [] -> subscriptionsOk w ->
  subscriptionsOk (foldl addSource w sources).
Proof.
  intros Hnone (_ & _ & Hrest). rewrite addLoop_spec. unfold subscriptionsOk.
  cbn [self heap interrupts set_interrupts]. rewrite Hnone in *. cbn [app].
  split; [apply NoDup_seq |]. split.
  - intros r Hr. apply elem_of_seq in Hr.
    destruct (lookup_lt_is_Some_2 sources (r - length (heap w))) as [src Hsrc];
      [lia |].
    exists src. rewrite lookup_app_r by lia. by rewrite list_lookup_fmap, Hsrc.
  - intros r i Hr Hi. rewrite elem_of_seq in Hr.
    assert (r < length (heap w))%nat as Hlt.
    { apply lookup_lt_Some in Hi. rewrite length_app, length_fmap in Hi. lia. }
    rewrite lookup_app_l in Hi by exact Hlt.
    apply (Hrest r i); [apply not_elem_of_nil | exact Hi].
Qed.

Lemma setInterrupts_subscriptionsOk sources w :
  subscriptionsOk w -> subscriptionsOk (snd (setInterrupts sources w)).
Proof.
  intros Hok. apply addLoop_subscriptionsOk.
  - by rewrite clearInterrupts_self.
  - by apply clearInterrupts_subscriptionsOk.
Qed.

Lemma step_subscriptionsOk w w' : Step w w' -> subscriptionsOk w -> subscriptionsOk w'.
Proof.
  intros [v w0|s w0|a w0|srcs w0|w0|w0|w0|w0|f e w0|w0|fuel ms w0 w1 Htick] Hok.
  - destruct w0 as [[] ]. unfold setTimeout.
    destruct v as [| |[]|z| |]; try case_bool_decide; exact Hok.
  - destruct w0 as [[] ]. unfold setIdle. case_bool_decide; exact Hok.
  - exact Hok.
  - by apply setInterrupts_subscriptionsOk.
  - by apply clearInterrupts_subscriptionsOk.
  - eapply lifecycleFrame_subscriptionsOk; [apply watch_frame | exact Hok].
  - eapply lifecycleFrame_subscriptionsOk; [apply stop_lifecycleFrame | exact Hok].
  - eapply lifecycleFrame_subscriptionsOk; [apply timeout_frame | exact Hok].
  - eapply lifecycleFrame_subscriptionsOk; [apply interrupt_frame | exact Hok].
  - apply clearInterrupts_subscriptionsOk.
    eapply lifecycleFrame_subscriptionsOk; [apply stop_lifecycleFrame | exact Hok].
  - eapply lifecycleFrame_subscriptionsOk; [eapply flush_frame; exact Htick | exact Hok].
Qed.

Lemma reachable_subscriptionsOk w : reachable w -> subscriptionsOk w.
Proof.
  induction 1 as [|w w' _ IH Hstep]; [| by eapply step_subscriptionsOk].
  split; [constructor |]. split.
  - intros r Hr. by apply elem_of_nil in Hr.
  - intros r i _ Hi. discriminate Hi.
Qed.

(** * Further properties of the service *)

Lemma tick_no_timers fuel ms w :
  timers w = [] -> tick fuel ms w = Some (set_now (now w + ms) w).
Proof. intros Hts. unfold tick. destruct fuel; cbn [flush]; by rewrite Hts. Qed.






(** X3: while a reachable service is not running (never watched, stopped,
    or timed out), the passage of time runs no callback: whatever the
    duration, a tick only moves the clock and nothing is emitted. *)
Theorem not_running_is_quiet (w : World) :
  reachable w -> isRunning w = false ->
  forall fuel ms, tick fuel ms w = Some (set_now (now w + ms) w).
Proof.
  intros Hok%reachable_timersOk Hr fuel ms. apply tick_no_timers.
  destruct w as [[i tv a s r g ih th c] hp ts nh n tr].
  unfold timersOk, phase, isRunning in *; cbn in *. subst r.
  destruct g; destruct Hok as [_ ->]; reflexivity.
Qed.

Lemma not_running_is_quiet_witness :
  tick 3 5000 (stop countdownScenario) =
  Some (set_now (now (stop countdownScenario) + 5000) (stop countdownScenario)).
Proof.
  apply not_running_is_quiet; [| reflexivity].
  eapply reach_step; [| apply StepStop].
  eapply reach_step; [| apply StepWatch].
  eapply reach_step; [| apply StepSetTimeout].
  eapply reach_step; [| apply StepSetIdle].
  apply reach_new.
Defined.













(** X10: in every reachable world the subscriptions attached to their source
    are exactly those [getInterrupts] returns: the listed references are
    distinct, each is active and carries the controller's listener, and no
    other subscription object is active or has a listener. *)
Theorem reachable_attached_are_listed (w : World) :
  reachable w ->
  NoDup (getInterrupts w) /\
  forall r i, heap w !! r = Some i ->
    (active i = true <-> r ∈ getInterrupts w) /\
    (listener i = Some ForwardToInterrupt <-> r ∈ getInterrupts w).
Proof.
  intros (Hnd & Hin & Hout)%reachable_subscriptionsOk. unfold getInterrupts.
  split; [exact Hnd |]. intros r i Hi.
  destruct (decide (r ∈ interrupts (self w))) as [Hr | Hr].
  - destruct (Hin r Hr) as [src Hsrc]. rewrite Hsrc in Hi. injection Hi as <-.
    split; split; auto.
  - destruct (Hout r i Hr Hi) as [-> ->]. split; split; try discriminate; contradiction.
Qed.

Lemma reachable_attached_are_listed_witness :
  NoDup (getInterrupts (snd (setInterrupts [keyboard; mouse] listening))) /\
  forall r i, heap (snd (setInterrupts [keyboard; mouse] listening)) !! r = Some i ->
    (active i = true <-> r ∈ getInterrupts (snd (setInterrupts [keyboard; mouse] listening))) /\
    (listener i = Some ForwardToInterrupt <->
       r ∈ getInterrupts (snd (setInterrupts [keyboard; mouse] listening))).
Proof.
  apply reachable_attached_are_listed.
  eapply reach_step; [| apply StepSetInterrupts].
  eapply reach_step; [| apply StepSetInterrupts].
  apply reach_new.
Defined.

Lemma clearOne_trace (w : World) (r : nat) :
  trace (clearOne w r) = trace w ++ detachCalls w [r].
Proof.
  unfold detachCalls. cbn [mbind list_bind]. rewrite app_nil_r.
  unfold clearOne, pause, unsubscribe.
  destruct (heap w !! r) as [i|] eqn:Hi; [| by rewrite Hi, app_nil_r].
  destruct (active i), (detachFn (source i)); cbn [andb];
    repeat match goal with
           | |- context [match ?l !! r with _ => _ end] => destruct (l !! r)
           end; cbn; rewrite ?app_nil_r; reflexivity.
Qed.

Lemma clearLoop_trace (l : list nat) :
  forall w, NoDup l -> trace (foldl clearOne w l) = trace w ++ detachCalls w l.
Proof.
  induction l as [|r l IH]; intros w Hnd; cbn [foldl].
  - unfold detachCalls. cbn. by rewrite app_nil_r.
  - apply NoDup_cons in Hnd as [Hr Hnd].
    rewrite (IH _ Hnd), clearOne_trace, <- app_assoc. f_equal.
    unfold detachCalls. cbn [mbind list_bind]. rewrite app_nil_r. f_equal.
    destruct (clearOne_heap w r) as (Hh & _). rewrite Hh.
    clear IH Hnd. induction l as [|x l IHl]; [reflexivity |].
    apply not_elem_of_cons in Hr as [Hne Hr]. cbn [mbind list_bind].
    rewrite list_lookup_alter_ne by congruence. f_equal. by apply IHl.
Qed.

(** X11: [ngOnDestroy] on a reachable service leaves nothing behind: the
    controller is stopped, it stores no handle and the host holds no
    interval, the subscription list is empty and no subscription object is
    active or has a listener.  It emits no notification; the calls it makes
    are the [clearInterval] of each stored handle and then, in list order,
    one detach hook for each listed subscription whose source has one. *)
Theorem ngOnDestroy_tears_down (w : World) :
  reachable w ->
  let w' := ngOnDestroy w in
  isRunning w' = false /\
  isIdling w' = false /\
  pending (self w') = [] /\
  timers w' = [] /\
  getInterrupts w' = [] /\
  (forall r i, heap w' !! r = Some i -> active i = false /\ listener i = None) /\
  emissions (trace w') = emissions (trace w) /\
  trace w' = trace w ++ clears (idleHandle (self w)) ++ clears (timeoutHandle (self w))
                     ++ detachCalls w (getInterrupts w).
Proof.
  intros Hreach w'.
  assert (Hreach' : reachable w') by (eapply reach_step; [exact Hreach | apply StepDestroy]).
  destruct (ngOnDestroy_spec w) as (Hp & Hr & Hg & Hsubs & _).
  pose proof (reachable_timersOk w' Hreach') as Hts.
  destruct (reachable_subscriptionsOk w' Hreach') as (_ & _ & Hout).
  destruct (reachable_subscriptionsOk w Hreach) as (Hnd & _).
  assert (Htrace : trace w' = trace w ++ clears (idleHandle (self w))
                     ++ clears (timeoutHandle (self w)) ++ detachCalls w (getInterrupts w)).
  { destruct (stop_frame w) as (Hheap & Hsame & _).
    subst w'. unfold ngOnDestroy, clearInterrupts. cbn [this trace].
    rewrite clearLoop_trace by (by rewrite Hsame).
    unfold detachCalls, getInterrupts. rewrite Hsame, Hheap.
    destruct w as [[i tv a s r g ih th c] hp ts nh n tr]. rewrite stop_shape.
    cbn [trace self idleHandle timeoutHandle interrupts heap].
    by rewrite <- !app_assoc. }
  split; [exact Hr |]. split; [exact Hg |]. split; [exact Hp |].
  split.
  { unfold timersOk, phase in Hts. fold w' in Hr, Hg. unfold isRunning, isIdling.
    rewrite Hr, Hg in Hts. by destruct Hts. }
  split; [exact Hsubs |]. split.
  { intros r i Hi. apply (Hout r i); [| exact Hi].
    fold w' in Hsubs. rewrite Hsubs. apply not_elem_of_nil. }
  split; [| exact Htrace].
  rewrite Htrace, !emissions_app.
  assert (Hc : forall ho, emissions (clears ho) = []) by (intros [?|]; reflexivity).
  rewrite !Hc. cbn [app].
  assert (Hd : forall l, emissions (detachCalls w l) = []).
  { induction l as [|x l IH]; [reflexivity |].
    unfold detachCalls in *. cbn [mbind list_bind]. rewrite emissions_app, IH.
    destruct (heap w !! x) as [i|]; [| reflexivity].
    destruct (active i && detachFn (source i)); reflexivity. }
  by rewrite Hd, app_nil_r.
Qed.

Lemma ngOnDestroy_tears_down_witness :
  timers (ngOnDestroy (watch listening)) = [] /\
  trace (ngOnDestroy (watch listening)) =
    trace (watch listening) ++ [ClearInterval 1%positive; Detach 0].
Proof.
  assert (Hreach : reachable (watch listening)).
  { eapply reach_step; [| apply StepWatch].
    eapply reach_step; [| apply StepSetInterrupts].
    apply reach_new. }
  pose proof (ngOnDestroy_tears_down (watch listening) Hreach) as H.
  cbv zeta in H. destruct H as (_ & _ & _ & Hts & _ & _ & _ & Htr).
  split; [exact Hts | exact Htr].
Defined.

(** X12: the lifecycle methods and the interval callbacks never change the
    configuration or the subscriptions: after [watch], [stop], [timeout],
    [interrupt] or any tick, the idle duration, the timeout, the policy, the
    subscription list and every subscription object are as before. *)
Theorem lifecycle_keeps_configuration (w : World) :
  lifecycleFrame w (watch w) /\
  lifecycleFrame w (stop w) /\
  lifecycleFrame w (timeout w) /\
  (forall force eventArgs, lifecycleFrame w (interrupt force eventArgs w)) /\
  (forall fuel ms, match tick fuel ms w with
                   | Some w' => lifecycleFrame w w'
                   | None => True
                   end).
Proof.
  split; [apply watch_frame |]. split; [apply stop_lifecycleFrame |].
  split; [apply timeout_frame |]. split; [intros; apply interrupt_frame |].
  intros fuel ms. destruct (tick fuel ms w) as [w'|] eqn:Htick; [| exact I].
  by eapply flush_frame.
Qed.

(** X13: the configuration methods never touch the lifecycle: whether they
    succeed or throw, [setIdle], [setTimeout], [setAutoResume],
    [setInterrupts] and [clearInterrupts] leave the running and idling flags,
    both handles, the countdown, the host's intervals and clock as they were
    and emit no notification.  In particular a new idle duration or timeout
    does not move an interval that is already scheduled. *)
Theorem configuration_keeps_lifecycle (w : World) :
  (forall seconds, configFrame w (snd (setIdle seconds w))) /\
  (forall seconds, configFrame w (snd (setTimeout seconds w))) /\
  (forall value, configFrame w (snd (setAutoResume value w))) /\
  (forall sources, configFrame w (snd (setInterrupts sources w))) /\
  configFrame w (clearInterrupts w).
Proof.
  split; [intros; apply setIdle_configFrame |].
  split; [intros; apply setTimeout_configFrame |].
  split; [intros; apply setAutoResume_configFrame |].
  split; [intros; apply setInterrupts_configFrame |].
  apply clearInterrupts_configFrame.
Qed.

(** X14: once the controller has timed out or has been stopped, interrupts
    are ignored, forced ones included, until [watch] is called again: the
    world stays exactly as [timeout] or [stop] left it. *)
Theorem interrupt_ignored_when_halted (force eventArgs : JsVal) (w : World) :
  interrupt force eventArgs (timeout w) = timeout w /\
  interrupt force eventArgs (stop w) = stop w.
Proof.
  destruct w as [[i tv a s r g ih th c] hp ts nh n tr].
  rewrite timeout_shape, stop_shape, !interrupt_shape. split; reflexivity.
Qed.

(** X15: [stop] drops the idle state silently, [timeout] does not: a
    [watch] right after [stop] emits no notification at all, even if the
    controller was idling before, whereas a [watch] right after [timeout]
    emits [onIdleEnd].  Either way the controller ends up running and not
    idling. *)
Theorem watch_after_halt (w : World) :
  emissions (trace (watch (stop w))) = emissions (trace w) /\
  emissions (trace (watch (timeout w))) =
    emissions (trace w) ++ [(onTimeout, JNull); (onIdleEnd, JNull)] /\
  isRunning (watch (stop w)) = true /\ isIdling (watch (stop w)) = false /\
  isRunning (watch (timeout w)) = true /\ isIdling (watch (timeout w)) = false.
Proof.
  destruct w as [[i tv a s r g ih th c] hp ts nh n tr].
  rewrite timeout_shape, stop_shape, !watch_shape.
  cbn [trace clears app]. rewrite !emissions_app.
  assert (Hc : forall ho, emissions (clears ho) = []) by (intros [?|]; reflexivity).
  rewrite !Hc. cbn. rewrite ?app_nil_r, <- ?app_assoc. repeat split.
Qed.
